(** * Field arithmetic of volvelle-wasm ([src/volvelle-wasm/src/fe.rs])

    A shallow embedding of the GF(32) field element [Fe], the polynomial
    [FePoly] and the checksum engine ([polymod], [hrp_residue]) of the
    volvelle website.

    Conventions of the embedding:
    - a Rust [u8] is an [N] below 256; wrap-around is written out where the
      source can overflow ([fe2 <<= 1]);
    - a Rust [char] is its Unicode scalar value, an [N];
    - a Rust [String] is the list of its characters;
    - a [Vec] indexed with [v[i]] is a [list] read with stdpp's [!!] and
      written with [<[i:=x]>]; an index out of range panics in Rust, which is
      [None] here. *)

From Stdlib Require Import NArith Ascii String Lia Btauto.
From stdpp Require Import base list.

Open Scope N_scope.

(** ** Characters and strings *)

(** The character of an ASCII literal, as a Unicode scalar value. *)
Definition c (a : ascii) : N := N_of_ascii a.

(** The characters of an ASCII literal string. *)
Definition chars (s : string) : list N := map c (list_ascii_of_string s).

(** The result type of a fallible conversion ([Result<T, E>]). *)
Inductive result (T E : Type) : Type :=
| Ok : T -> result T E
| Err : E -> result T E.
Arguments Ok {T E} _.
Arguments Err {T E} _.

(** ** Field elements *)

(** [pub struct Fe(u8)] *)
Record Fe : Type := mkFe { fe_0 : N }.

Definition fe_eqb (a b : Fe) : bool := N.eqb (fe_0 a) (fe_0 b).

(** [const ZERO: Fe = Fe(0)] *)
Definition ZERO : Fe := mkFe 0.

(** [Fe::zero] *)
Definition zero : Fe := mkFe 0.

(** [Fe::one] *)
Definition one : Fe := mkFe 1.

(** [Fe::from_bin(n: u8)]: stores [n] unchanged. *)
Definition from_bin (n : N) : Fe := mkFe n.

(** [const BECH32_ALPHABET: &[u8] = b"QPZRY9X8GF2TVDW0S3JNS4KHCE6MUA7L"] *)
Definition BECH32_ALPHABET : list N := chars "QPZRY9X8GF2TVDW0S3JNS4KHCE6MUA7L".

(** [impl From<Fe> for char]: [BECH32_ALPHABET[fe.0 as usize].into()].
    Indexing the 32-byte slice past its end panics ([None]). *)
Definition char_of_fe (fe : Fe) : option N :=
  BECH32_ALPHABET !! N.to_nat (fe_0 fe).

(** The error message of [TryFrom<char> for Fe]:
    [format!("invalid bech32 character {}", x)]. *)
Definition invalid_char_msg (x : N) : list N :=
  chars "invalid bech32 character " ++ [x].

(** [impl TryFrom<char> for Fe], one test per arm of the [match]. *)
Definition fe_try_from (ch : N) : result Fe (list N) :=
  if ch =? c "Q" then Ok (mkFe 0x00) else
  if ch =? c "P" then Ok (mkFe 0x01) else
  if ch =? c "Z" then Ok (mkFe 0x02) else
  if ch =? c "R" then Ok (mkFe 0x03) else
  if ch =? c "Y" then Ok (mkFe 0x04) else
  if ch =? c "9" then Ok (mkFe 0x05) else
  if ch =? c "X" then Ok (mkFe 0x06) else
  if ch =? c "8" then Ok (mkFe 0x07) else
  if ch =? c "G" then Ok (mkFe 0x08) else
  if ch =? c "F" then Ok (mkFe 0x09) else
  if ch =? c "2" then Ok (mkFe 0x0a) else
  if ch =? c "T" then Ok (mkFe 0x0b) else
  if ch =? c "V" then Ok (mkFe 0x0c) else
  if ch =? c "D" then Ok (mkFe 0x0d) else
  if ch =? c "W" then Ok (mkFe 0x0e) else
  if ch =? c "0" then Ok (mkFe 0x0f) else
  if ch =? c "S" then Ok (mkFe 0x10) else
  if ch =? c "3" then Ok (mkFe 0x11) else
  if ch =? c "J" then Ok (mkFe 0x12) else
  if ch =? c "N" then Ok (mkFe 0x13) else
  if ch =? c "5" then Ok (mkFe 0x14) else
  if ch =? c "4" then Ok (mkFe 0x15) else
  if ch =? c "K" then Ok (mkFe 0x16) else
  if ch =? c "H" then Ok (mkFe 0x17) else
  if ch =? c "C" then Ok (mkFe 0x18) else
  if ch =? c "E" then Ok (mkFe 0x19) else
  if ch =? c "6" then Ok (mkFe 0x1a) else
  if ch =? c "M" then Ok (mkFe 0x1b) else
  if ch =? c "U" then Ok (mkFe 0x1c) else
  if ch =? c "A" then Ok (mkFe 0x1d) else
  if ch =? c "7" then Ok (mkFe 0x1e) else
  if ch =? c "L" then Ok (mkFe 0x1f) else
  Err (invalid_char_msg ch).

(** The characters accepted by the arms of [TryFrom<char> for Fe], in the
    order of the arms. *)
Definition try_from_chars : list N := chars "QPZRY9X8GF2TVDW0S3JN54KHCE6MUA7L".

(** [impl ops::Add<Fe> for Fe]: [Fe(self.0 ^ other.0)]. *)
Definition fe_add (a b : Fe) : Fe := mkFe (N.lxor (fe_0 a) (fe_0 b)).

(** The [while self.0 > 0] loop of [impl ops::Mul<&Fe> for Fe], on the
    state [(self.0, fe2, ret)]. Each iteration halves [self.0], a [u8], so
    eight iterations always reach the exit; [fuel] counts them. [fe2 <<= 1]
    on a [u8] drops the bits shifted past bit 7. *)
Fixpoint mul_loop (fuel : nat) (s fe2 ret : N) : N :=
  match fuel with
  | O => ret
  | S fuel' =>
      if 0 <? s then
        let ret := if N.land s 1 =? 1 then N.lxor ret fe2 else ret in
        let s := N.shiftr s 1 in
        let fe2 := N.land (N.shiftl fe2 1) 255 in
        let fe2 := if N.land fe2 32 =? 32 then N.lxor fe2 (32 + 8 + 1) else fe2 in
        mul_loop fuel' s fe2 ret
      else ret
  end.

(** [impl ops::Mul<&Fe> for Fe] (and [ops::Mul<Fe>], which calls it). *)
Definition fe_mul (a b : Fe) : Fe := mkFe (mul_loop 8 (fe_0 a) (fe_0 b) 0).

(** ** Polynomials *)

(** [pub struct FePoly(Vec<Fe>)] *)
Record FePoly : Type := mkFePoly { fepoly_0 : list Fe }.

(** [impl ops::Index<usize> for FePoly]:
    [self.0.get(idx).unwrap_or(&ZERO)]. *)
Definition fepoly_index (p : FePoly) (idx : nat) : Fe :=
  match fepoly_0 p !! idx with
  | Some fe => fe
  | None => ZERO
  end.

(** The closure of [FePoly::normalize], run by [Vec::retain] over the
    elements in order, with its captured [seen_nonzero] flag. *)
Fixpoint retain_seen (seen_nonzero : bool) (l : list Fe) : list Fe :=
  match l with
  | [] => []
  | elem :: l' =>
      let seen_nonzero := seen_nonzero || negb (fe_eqb elem (mkFe 0)) in
      if seen_nonzero then elem :: retain_seen seen_nonzero l'
      else retain_seen seen_nonzero l'
  end.

(** [FePoly::normalize] *)
Definition normalize (l : list Fe) : list Fe := retain_seen false l.

(** [v[i] = x] on a [Vec]: panics when [i] is out of range. *)
Definition vec_set (v : list Fe) (i : nat) (x : Fe) : option (list Fe) :=
  if decide (i < length v)%nat then Some (<[i:=x]> v) else None.

(** [for i in lo..lo+k { body }], stopping at the first panic. *)
Fixpoint for_each (k lo : nat) (body : nat -> list Fe -> option (list Fe))
    (ret : list Fe) : option (list Fe) :=
  match k with
  | O => Some ret
  | S k' => ret' ← body lo ret; for_each k' (S lo) body ret'
  end.

(** [modulus.len() - 1] on [usize]: the subtraction overflows (a panic)
    when the modulus is empty. *)
Definition usize_sub1 (n : nat) : option nat :=
  match n with O => None | S n' => Some n' end.

Section Polymod.
Variable modulus : list Fe.

(** [ret[i] = ret[i + 1]] *)
Definition shift_body (i : nat) (ret : list Fe) : option (list Fe) :=
  x ← ret !! S i; vec_set ret i x.

(** [ret[i] = ret[i] + c13 * modulus[i]] *)
Definition add_body (c13 : Fe) (i : nat) (ret : list Fe) : option (list Fe) :=
  x ← ret !! i; g ← modulus !! i; vec_set ret i (fe_add x (fe_mul c13 g)).

(** One iteration of [for ch in &self.0] in [FePoly::polymod]. *)
Definition polymod_step (ret : list Fe) (ch : Fe) : option (list Fe) :=
  c13 ← ret !! 0%nat;
  n ← usize_sub1 (length modulus);
  ret ← for_each n 0 shift_body ret;
  ret ← vec_set ret 12 ch;
  for_each (length modulus) 0 (add_body c13) ret.

Fixpoint polymod_loop (ret : list Fe) (chs : list Fe) : option (list Fe) :=
  match chs with
  | [] => Some ret
  | ch :: chs' => ret' ← polymod_step ret ch; polymod_loop ret' chs'
  end.

(** The accumulator of [FePoly::polymod] before [normalize]; it starts as
    [vec![Fe(0); 13]]. *)
Definition polymod_acc (p : FePoly) : option (list Fe) :=
  polymod_loop (repeat (mkFe 0) 13) (fepoly_0 p).

(** [FePoly::polymod] *)
Definition polymod (p : FePoly) : option FePoly :=
  ret ← polymod_acc p; Some (mkFePoly (normalize ret)).
End Polymod.

(** [const CODEX32_POLYMOD: &[Fe]] *)
Definition CODEX32_POLYMOD : list Fe :=
  map mkFe [25; 27; 17; 8; 0; 25; 25; 25; 31; 27; 24; 16; 16].

(** [const BECH32_POLYMOD: &[Fe]] *)
Definition BECH32_POLYMOD : list Fe := map mkFe [29; 22; 20; 21; 29; 18].

(** [FePoly::codex32_polymod] *)
Definition codex32_polymod (p : FePoly) : option FePoly :=
  polymod CODEX32_POLYMOD p.

(** [FePoly::bech32_polymod] *)
Definition bech32_polymod (p : FePoly) : option FePoly :=
  polymod BECH32_POLYMOD p.

(** [FePoly::hrp_residue]: [poly_1] is built by pushes, as in the source;
    [s] is the list of the bytes of the string ([s.bytes()]). *)
Definition hrp_poly (s : list N) (modulus : list Fe) : list Fe :=
  let poly_1 := [mkFe 1] in
  let poly_1 := fold_left (fun v ch => v ++ [mkFe (N.shiftr ch 5)]) s poly_1 in
  let poly_1 := poly_1 ++ [mkFe 0] in
  let poly_1 := fold_left (fun v ch => v ++ [mkFe (N.land ch 0x1f)]) s poly_1 in
  poly_1 ++ repeat (mkFe 0) (length modulus).

Definition hrp_residue (s : list N) (modulus : list Fe) : option FePoly :=
  polymod modulus (mkFePoly (hrp_poly s modulus)).

(** [FePoly::codex32_hrp_residue] *)
Definition codex32_hrp_residue (s : list N) : option FePoly :=
  hrp_residue s CODEX32_POLYMOD.

(** [FePoly::bech32_hrp_residue] *)
Definition bech32_hrp_residue (s : list N) : option FePoly :=
  hrp_residue s BECH32_POLYMOD.

(** ** Reference definitions following the specification's words *)

(** The shift-register reduction of the specification (section 4.2): an
    accumulator of exactly [L = length g] elements, initially all zero; per
    input coefficient the carry is element 0, the other [L-1] elements move
    down by one, the coefficient goes to position [L-1], and position [i]
    gains [carry * g[i]]. *)
Definition spec_step (g : list Fe) (acc : list Fe) (ch : Fe) : list Fe :=
  let carry := match acc with [] => mkFe 0 | a :: _ => a end in
  let shifted := tail acc ++ [ch] in
  zip_with (fun x gi => fe_add x (fe_mul carry gi)) shifted g.

(** Stripping the leading zero coefficients. *)
Fixpoint strip_leading_zeros (l : list Fe) : list Fe :=
  match l with
  | [] => []
  | x :: l' => if fe_eqb x (mkFe 0) then strip_leading_zeros l' else l
  end.

Definition polymod_spec (g : list Fe) (p : FePoly) : FePoly :=
  mkFePoly (strip_leading_zeros
              (fold_left (spec_step g) (fepoly_0 p) (repeat (mkFe 0) (length g)))).

(** The expanded HRP sequence of the specification (section 4.3). *)
Definition hrp_expand_spec (s : list N) (L : nat) : list Fe :=
  [mkFe 1] ++ map (fun b => mkFe (N.shiftr b 5)) s ++ [mkFe 0]
  ++ map (fun b => mkFe (N.land b 0x1f)) s ++ repeat (mkFe 0) L.

(** Carry-less product of two bit patterns. *)
Fixpoint clmul_bits (k : nat) (a b : N) : N :=
  match k with
  | O => 0
  | S k' => N.lxor (if N.testbit a (N.of_nat k') then N.shiftl b (N.of_nat k') else 0)
                   (clmul_bits k' a b)
  end.

(** Reduction of a polynomial of degree below [5 + k] modulo
    x^5 + x^3 + 1 (bit pattern 0b101001 = 41), from the top degree down. *)
Fixpoint reduce_mod41 (k : nat) (p : N) : N :=
  match k with
  | O => p
  | S k' =>
      let d := N.of_nat k' in
      reduce_mod41 k' (if N.testbit p (5 + d) then N.lxor p (N.shiftl 41 d) else p)
  end.

(** GF(32) multiplication of the specification (section 4.1). *)
Definition gf32_mul_spec (a b : N) : N := reduce_mod41 4 (clmul_bits 5 a b).

(** * Properties *)

(** ** Helper lemmas *)

Lemma below32_in_range (a : N) :
  a <= 31 -> In a (map N.of_nat (seq 0 32)).
Proof.
  intros Ha. apply in_map_iff. exists (N.to_nat a). split.
  - lia.
  - apply in_seq. lia.
Qed.

(** The whole multiplication table, checked against [gf32_mul_spec]. *)
Definition mul_table_ok : bool :=
  let R := map N.of_nat (seq 0 32) in
  forallb (fun a => forallb (fun b =>
    (fe_0 (fe_mul (mkFe a) (mkFe b)) =? gf32_mul_spec a b)
    && (fe_0 (fe_mul (mkFe a) one) =? a)) R) R.

Lemma mul_table_ok_true : mul_table_ok = true.
Proof. vm_compute. reflexivity. Qed.

Lemma mul_loop_zero_right (fuel : nat) (s : N) : mul_loop fuel s 0 0 = 0.
Proof.
  revert s. induction fuel as [|fuel IH]; intros s; simpl; [reflexivity|].
  destruct (0 <? s); [|reflexivity].
  destruct (N.land s 1 =? 1); simpl; apply IH.
Qed.

Lemma fold_push_map (f : N -> Fe) (s : list N) (v : list Fe) :
  fold_left (fun v ch => v ++ [f ch]) s v = v ++ map f s.
Proof.
  revert v. induction s as [|x s IH]; intros v; simpl.
  - by rewrite app_nil_r.
  - rewrite IH. by rewrite <- app_assoc.
Qed.

Lemma retain_seen_true (l : list Fe) : retain_seen true l = l.
Proof. induction l as [|x l IH]; simpl; [done|]. by rewrite IH. Qed.

Lemma normalize_strip (l : list Fe) : normalize l = strip_leading_zeros l.
Proof.
  unfold normalize. induction l as [|x l IH]; simpl; [done|].
  unfold fe_eqb. destruct x as [v]. simpl. destruct (v =? 0); simpl; [exact IH|].
  by rewrite retain_seen_true.
Qed.

Lemma strip_leading_zeros_shape (l : list Fe) :
  exists k, l = repeat (mkFe 0) k ++ strip_leading_zeros l /\
    (strip_leading_zeros l = [] \/
     exists x t, strip_leading_zeros l = x :: t /\ fe_0 x <> 0).
Proof.
  induction l as [|x l IH]; simpl.
  - exists 0%nat. auto.
  - unfold fe_eqb. cbn [fe_0]. destruct (N.eqb_spec (fe_0 x) 0) as [Hx|Hx].
    + destruct IH as [k [Hk Hs]]. exists (S k). split; [|done].
      destruct x as [x]. simpl in Hx. subst x. simpl. by rewrite <- Hk.
    + exists 0%nat. split; [done|]. right. eauto.
Qed.

Lemma vec_set_lt (v : list Fe) (i : nat) (x : Fe) :
  (i < length v)%nat -> vec_set v i x = Some (<[i:=x]> v).
Proof. intros Hi. unfold vec_set. by rewrite decide_True. Qed.

Lemma for_each_some (k lo : nat) (body : nat -> list Fe -> option (list Fe))
    (ret : list Fe) :
  length ret = 13%nat ->
  (forall i r, (lo <= i < lo + k)%nat -> length r = 13%nat ->
     exists r', body i r = Some r' /\ length r' = 13%nat) ->
  exists r', for_each k lo body ret = Some r' /\ length r' = 13%nat.
Proof.
  revert lo ret. induction k as [|k IH]; intros lo ret Hlen Hbody; simpl.
  - eauto.
  - destruct (Hbody lo ret) as [r' [Hr' Hlen']]; [lia|done|].
    rewrite Hr'. simpl. apply IH; [done|].
    intros i r Hi Hr. apply Hbody; [lia|done].
Qed.

Lemma polymod_step_some (modulus ret : list Fe) (ch : Fe) :
  (1 <= length modulus <= 13)%nat -> length ret = 13%nat ->
  exists r', polymod_step modulus ret ch = Some r' /\ length r' = 13%nat.
Proof.
  intros Hm Hlen. unfold polymod_step.
  destruct (ret !! 0%nat) as [c13|] eqn:Hc;
    [|apply lookup_ge_None_1 in Hc; lia].
  simpl. assert (Hn : usize_sub1 (length modulus) = Some (pred (length modulus))).
  { destruct (length modulus); [lia|done]. }
  rewrite Hn. simpl.
  destruct (for_each_some (pred (length modulus)) 0 shift_body ret) as [r1 [Hr1 Hlen1]]; [done| |].
  { intros i r Hi Hr. unfold shift_body.
    destruct (r !! S i) as [x|] eqn:Hx; [|apply lookup_ge_None_1 in Hx; lia].
    simpl. rewrite vec_set_lt by lia. eexists. split; [done|].
    by rewrite length_insert. }
  rewrite Hr1. simpl. rewrite vec_set_lt by lia. simpl.
  apply for_each_some; [by rewrite length_insert|].
  intros i r Hi Hr. unfold add_body.
  destruct (r !! i) as [x|] eqn:Hx; [|apply lookup_ge_None_1 in Hx; lia].
  destruct (modulus !! i) as [g|] eqn:Hg; [|apply lookup_ge_None_1 in Hg; lia].
  simpl. rewrite vec_set_lt by lia. eexists. split; [done|].
  by rewrite length_insert.
Qed.

Lemma polymod_loop_some (modulus ret chs : list Fe) :
  (1 <= length modulus <= 13)%nat -> length ret = 13%nat ->
  exists r', polymod_loop modulus ret chs = Some r' /\ length r' = 13%nat.
Proof.
  revert ret. induction chs as [|ch chs IH]; intros ret Hm Hlen; simpl; [eauto|].
  destruct (polymod_step_some modulus ret ch) as [r' [Hr' Hlen']]; [done|done|].
  rewrite Hr'. simpl. by apply IH.
Qed.

(** Every reduction with a generator of length 1 to 13 returns the
    normalization of its accumulator. *)
Lemma polymod_normalized (modulus : list Fe) (p : FePoly) :
  (1 <= length modulus <= 13)%nat ->
  exists acc r, polymod_acc modulus p = Some acc /\ polymod modulus p = Some r /\
    exists k, acc = repeat (mkFe 0) k ++ fepoly_0 r /\
      (fepoly_0 r = [] \/ exists x t, fepoly_0 r = x :: t /\ fe_0 x <> 0).
Proof.
  intros Hm. unfold polymod, polymod_acc.
  destruct (polymod_loop_some modulus (repeat (mkFe 0) 13) (fepoly_0 p))
    as [acc [Hacc _]]; [done|by rewrite repeat_length|].
  rewrite Hacc. simpl. exists acc, (mkFePoly (normalize acc)).
  split; [done|]. split; [done|]. simpl. rewrite normalize_strip.
  apply strip_leading_zeros_shape.
Qed.

(** With a 13-element generator the source's register is the one of the
    specification: one step of each agrees on every 13-element accumulator. *)
Lemma polymod_step_len13 (modulus ret : list Fe) (ch : Fe) :
  length modulus = 13%nat -> length ret = 13%nat ->
  polymod_step modulus ret ch = Some (spec_step modulus ret ch).
Proof.
  intros Hm Hr.
  do 13 (destruct modulus as [|? modulus]; [simpl in Hm; lia|]).
  destruct modulus; [|simpl in Hm; lia].
  do 13 (destruct ret as [|? ret]; [simpl in Hr; lia|]).
  destruct ret; [|simpl in Hr; lia].
  reflexivity.
Qed.

Lemma polymod_loop_codex32 (chs ret : list Fe) :
  length ret = 13%nat ->
  polymod_loop CODEX32_POLYMOD ret chs =
  Some (fold_left (spec_step CODEX32_POLYMOD) chs ret).
Proof.
  revert ret. induction chs as [|ch chs IH]; intros ret Hr; simpl; [done|].
  rewrite polymod_step_len13 by done. simpl. apply IH.
  unfold spec_step. rewrite length_zip_with, length_app. simpl.
  destruct ret; simpl in *; lia.
Qed.

(** [codex32_polymod] is the 13-element shift-register reduction of the
    specification against the codex32 generator, on every input. *)
Lemma polymod_codex32_spec (p : FePoly) :
  codex32_polymod p = Some (polymod_spec CODEX32_POLYMOD p).
Proof.
  unfold codex32_polymod, polymod, polymod_spec, polymod_acc.
  rewrite polymod_loop_codex32 by done. simpl. by rewrite normalize_strip.
Qed.

(** ** Claims *)

(** C1 (code_bug). [polymod] allocates [vec![Fe(0); 13]] and writes the new
    coefficient to [ret[12]] whatever the generator's length. With the
    6-element bech32 generator the coefficient never reaches positions 0..5,
    so the carry stays zero: on [[1; 0]] the accumulator ends as thirteen
    zeros and [bech32_polymod] returns the empty polynomial, while the
    6-element shift register of the specification returns [[1; 0]]. *)
Theorem bech32_polymod_not_6_register :
  polymod_acc BECH32_POLYMOD (mkFePoly [mkFe 1; mkFe 0]) = Some (repeat (mkFe 0) 13) /\
  bech32_polymod (mkFePoly [mkFe 1; mkFe 0]) = Some (mkFePoly []) /\
  polymod_spec BECH32_POLYMOD (mkFePoly [mkFe 1; mkFe 0]) = mkFePoly [mkFe 1; mkFe 0].
Proof. split; [|split]; vm_compute; reflexivity. Qed.

(** C2 (code_bug). [BECH32_ALPHABET] holds ['S'] at index 20 where the
    [TryFrom<char>] arms hold ['5']: the element of value 20 converts to
    ['S'], which converts back to the element of value 16. *)
Theorem alphabet_roundtrip_fails_at_20 :
  char_of_fe (mkFe 20) = Some (c "S") /\ fe_try_from (c "S") = Ok (mkFe 16).
Proof. split; reflexivity. Qed.

(** C3 (counterexample). [Fe::from_bin(32)] stores 32, outside [0, 31]. *)
Lemma from_bin_out_of_range : ~ (fe_0 (from_bin 32) <= 31).
Proof. simpl. lia. Qed.

(** C3 (amended). [Fe::zero], [Fe::one] and the character conversion give
    values in [0, 31]; [Fe::from_bin n] stores [n] unchanged, so its value
    is in [0, 31] exactly when [n <= 31]. *)
Theorem fe_construction_range :
  fe_0 zero <= 31 /\ fe_0 one <= 31 /\
  (forall ch fe, fe_try_from ch = Ok fe -> fe_0 fe <= 31) /\
  (forall n, fe_0 (from_bin n) = n /\ (fe_0 (from_bin n) <= 31 <-> n <= 31)).
Proof.
  split; [simpl; lia|]. split; [simpl; lia|]. split.
  - intros ch fe. unfold fe_try_from.
    repeat (case_match; [intros Hok; inversion Hok; subst; simpl; lia|]).
    discriminate.
  - intros n. simpl. split; [done|lia].
Qed.

(** C4 (counterexample). Converting [Fe::from_bin(32)] to a character
    indexes the 32-byte alphabet past its end: a panic. *)
Lemma char_of_from_bin_32_panics : char_of_fe (from_bin 32) = None.
Proof. reflexivity. Qed.

(** C4 (amended). Element-to-character conversion is a table lookup that
    succeeds exactly on the elements whose value is in [0, 31] (those of
    [Fe::zero], [Fe::one], the character conversion and [Fe::from_bin n]
    with [n <= 31]); for a larger value it panics. *)
Theorem char_of_fe_total_in_range (fe : Fe) :
  is_Some (char_of_fe fe) <-> fe_0 fe <= 31.
Proof.
  unfold char_of_fe. rewrite lookup_lt_is_Some.
  change (length BECH32_ALPHABET) with 32%nat. lia.
Qed.

(** C5 (counterexample). ['5'] is not a character of [BECH32_ALPHABET]
    (whose index 20 holds a second ['S']), yet converting it succeeds. *)
Lemma five_outside_alphabet_accepted :
  ~ In (c "5") BECH32_ALPHABET /\ fe_try_from (c "5") = Ok (mkFe 20).
Proof.
  split; [|reflexivity].
  vm_compute. intuition discriminate.
Qed.

(** C5 (amended). Converting a character succeeds exactly on the 32
    characters of the [TryFrom<char>] arms
    ([QPZRY9X8GF2TVDW0S3JN54KHCE6MUA7L], the bech32 character set), and on
    every other character returns an error whose message is
    "invalid bech32 character " followed by that character. *)
Theorem fe_try_from_spec (ch : N) :
  (In ch try_from_chars <-> exists fe, fe_try_from ch = Ok fe) /\
  (~ In ch try_from_chars -> fe_try_from ch = Err (invalid_char_msg ch)).
Proof.
  assert (Hout : ~ In ch try_from_chars -> fe_try_from ch = Err (invalid_char_msg ch)).
  { intros Hn. unfold fe_try_from.
    repeat match goal with
    | |- context [if ch =? ?y then _ else _] =>
        destruct (N.eqb_spec ch y) as [Heq|_];
        [exfalso; apply Hn; rewrite Heq; vm_compute; intuition|]
    end.
    reflexivity. }
  split; [|exact Hout]. split.
  - intros Hin. vm_compute in Hin.
    repeat (destruct Hin as [<-|Hin]; [eexists; reflexivity|]).
    contradiction.
  - intros [fe Hfe]. destruct (decide (In ch try_from_chars)) as [Hin|Hn]; [done|].
    rewrite (Hout Hn) in Hfe. discriminate.
Qed.

(** C6. [hrp_residue] reduces, with the supplied generator, the sequence
    1, the high 3 bits of each byte, 0, the low 5 bits of each byte, and as
    many zeros as the generator has coefficients. *)
Theorem hrp_residue_expansion (s : list N) (modulus : list Fe) :
  hrp_residue s modulus = polymod modulus (mkFePoly (hrp_expand_spec s (length modulus))).
Proof.
  unfold hrp_residue, hrp_poly, hrp_expand_spec.
  rewrite !fold_push_map. by rewrite <- !app_assoc.
Qed.

(** C7. On values in [0, 31], [mul] is carry-less multiplication reduced
    modulo x^5 + x^3 + 1 (mask 41); [one] is neutral and [zero] absorbs. *)
Theorem fe_mul_gf32 (a b : Fe) (Ha : fe_0 a <= 31) (Hb : fe_0 b <= 31) :
  fe_0 (fe_mul a b) = gf32_mul_spec (fe_0 a) (fe_0 b) /\
  fe_mul a one = a /\ fe_mul a zero = zero.
Proof.
  pose proof mul_table_ok_true as Htab. unfold mul_table_ok in Htab.
  rewrite forallb_forall in Htab.
  specialize (Htab (fe_0 a) (below32_in_range _ Ha)).
  rewrite forallb_forall in Htab.
  specialize (Htab (fe_0 b) (below32_in_range _ Hb)).
  apply andb_prop in Htab as [H1 H2]. apply N.eqb_eq in H1, H2.
  split; [done|]. split.
  - destruct a as [a]. unfold fe_mul in *. cbn [fe_0 one] in *. by rewrite H2.
  - unfold fe_mul, zero. cbn [fe_0]. by rewrite mul_loop_zero_right.
Qed.

Lemma fe_mul_gf32_witness :
  fe_0 (mkFe 7) <= 31 /\ fe_0 (mkFe 13) <= 31 /\
  (fe_0 (fe_mul (mkFe 7) (mkFe 13)) = gf32_mul_spec 7 13 /\
   fe_mul (mkFe 7) one = mkFe 7 /\ fe_mul (mkFe 7) zero = zero).
Proof.
  assert (Ha : fe_0 (mkFe 7) <= 31) by (simpl; lia).
  assert (Hb : fe_0 (mkFe 13) <= 31) by (simpl; lia).
  split; [exact Ha|]. split; [exact Hb|].
  exact (fe_mul_gf32 (mkFe 7) (mkFe 13) Ha Hb).
Defined.

(** C8. Addition is the exclusive-or of the values; it is commutative, every
    element is its own inverse, and adding [b] twice gives back [a]. *)
Theorem fe_add_xor (a b : Fe) :
  fe_0 (fe_add a b) = N.lxor (fe_0 a) (fe_0 b) /\
  fe_add a b = fe_add b a /\ fe_add a a = zero /\ fe_add (fe_add a b) b = a.
Proof.
  destruct a as [a], b as [b]. unfold fe_add, zero. simpl.
  split; [done|]. split; [by rewrite N.lxor_comm|]. split.
  - by rewrite N.lxor_nilpotent.
  - by rewrite N.lxor_assoc, N.lxor_nilpotent, N.lxor_0_r.
Qed.

(** C9. Indexing past the end of a polynomial gives [Fe(0)]; below its
    length it gives the stored coefficient. *)
Theorem fepoly_index_spec (p : FePoly) (idx : nat) :
  ((length (fepoly_0 p) <= idx)%nat -> fepoly_index p idx = zero) /\
  ((idx < length (fepoly_0 p))%nat -> fepoly_0 p !! idx = Some (fepoly_index p idx)).
Proof.
  unfold fepoly_index. split; intros Hi.
  - by rewrite lookup_ge_None_2.
  - destruct (lookup_lt_is_Some_2 (fepoly_0 p) idx Hi) as [fe ->]. done.
Qed.

(** C10. The four public reductions never panic, and each returns the
    accumulator with its leading zeros removed: the result is empty or starts
    with a nonzero coefficient, and the accumulator is zeros followed by it. *)
Definition normalized_of (acc : list Fe) (r : FePoly) : Prop :=
  exists k, acc = repeat (mkFe 0) k ++ fepoly_0 r /\
    (fepoly_0 r = [] \/ exists x t, fepoly_0 r = x :: t /\ fe_0 x <> 0).

Theorem public_reductions_normalized (p : FePoly) (s : list N) :
  (exists acc r, polymod_acc CODEX32_POLYMOD p = Some acc /\
     codex32_polymod p = Some r /\ normalized_of acc r) /\
  (exists acc r, polymod_acc BECH32_POLYMOD p = Some acc /\
     bech32_polymod p = Some r /\ normalized_of acc r) /\
  (exists acc r, polymod_acc CODEX32_POLYMOD (mkFePoly (hrp_poly s CODEX32_POLYMOD)) = Some acc /\
     codex32_hrp_residue s = Some r /\ normalized_of acc r) /\
  (exists acc r, polymod_acc BECH32_POLYMOD (mkFePoly (hrp_poly s BECH32_POLYMOD)) = Some acc /\
     bech32_hrp_residue s = Some r /\ normalized_of acc r).
Proof.
  unfold codex32_polymod, bech32_polymod, codex32_hrp_residue,
    bech32_hrp_residue, hrp_residue, normalized_of.
  split; [|split; [|split]]; apply polymod_normalized; vm_compute; lia.
Qed.

(** ** Further properties of the reduction *)

Lemma lookup_repeat_lt (x : Fe) (n i : nat) :
  (i < n)%nat -> repeat x n !! i = Some x.
Proof.
  revert i. induction n as [|n IH]; intros [|i] Hi; simpl; try lia; [done|].
  apply IH. lia.
Qed.

Lemma for_each_id (k lo : nat) (body : nat -> list Fe -> option (list Fe))
    (l : list Fe) :
  (forall i, (lo <= i < lo + k)%nat -> body i l = Some l) ->
  for_each k lo body l = Some l.
Proof.
  revert lo. induction k as [|k IH]; intros lo Hb; simpl; [done|].
  rewrite Hb by lia. simpl. apply IH. intros i Hi. apply Hb. lia.
Qed.

Lemma shift_body_zero (i : nat) (l : list Fe) :
  l !! i = Some (mkFe 0) -> l !! S i = Some (mkFe 0) -> shift_body i l = Some l.
Proof.
  intros Hi Hs. unfold shift_body. rewrite Hs. simpl.
  rewrite vec_set_lt by (eapply lookup_lt_Some; done).
  f_equal. by apply list_insert_id.
Qed.

Lemma add_body_zero (modulus : list Fe) (i : nat) (l : list Fe) :
  is_Some (l !! i) -> is_Some (modulus !! i) ->
  add_body modulus (mkFe 0) i l = Some l.
Proof.
  intros [x Hx] [g Hg]. unfold add_body. rewrite Hx, Hg. simpl.
  rewrite vec_set_lt by (eapply lookup_lt_Some; done).
  f_equal. apply list_insert_id. rewrite Hx. f_equal.
  destruct x as [x]. unfold fe_add, fe_mul. simpl. by rewrite N.lxor_0_r.
Qed.

Lemma usize_sub1_pos (n : nat) : (1 <= n)%nat -> usize_sub1 n = Some (pred n).
Proof. intros Hn. destruct n; [lia|done]. Qed.

(** A zero coefficient leaves the all-zero accumulator as it is. *)
Lemma polymod_step_zeros (modulus : list Fe) :
  (1 <= length modulus <= 13)%nat ->
  polymod_step modulus (repeat (mkFe 0) 13) (mkFe 0) = Some (repeat (mkFe 0) 13).
Proof.
  intros Hm. remember (repeat (mkFe 0) 13) as z eqn:Hz.
  assert (Hzi : forall i, (i < 13)%nat -> z !! i = Some (mkFe 0)).
  { intros i Hi. subst z. by apply lookup_repeat_lt. }
  assert (Hlen : length z = 13%nat) by (subst z; apply repeat_length).
  unfold polymod_step. rewrite Hzi by lia. simpl.
  rewrite usize_sub1_pos by lia. simpl.
  rewrite for_each_id; [simpl|].
  2: { intros i Hi. apply shift_body_zero; apply Hzi; lia. }
  rewrite vec_set_lt by lia. simpl.
  rewrite (list_insert_id _ 12) by (apply Hzi; lia).
  apply for_each_id. intros i Hi. apply add_body_zero.
  - rewrite Hzi by lia. eauto.
  - apply lookup_lt_is_Some. lia.
Qed.

Lemma polymod_loop_zeros (modulus : list Fe) (n : nat) :
  (1 <= length modulus <= 13)%nat ->
  polymod_loop modulus (repeat (mkFe 0) 13) (repeat (mkFe 0) n) =
  Some (repeat (mkFe 0) 13).
Proof.
  intros Hm. induction n as [|n IH]; simpl; [done|].
  rewrite polymod_step_zeros by done. simpl. exact IH.
Qed.

Lemma polymod_loop_app (modulus ret a b : list Fe) :
  polymod_loop modulus ret (a ++ b) =
  (ret' ← polymod_loop modulus ret a; polymod_loop modulus ret' b).
Proof.
  revert ret. induction a as [|ch a IH]; intros ret; simpl; [done|].
  destruct (polymod_step modulus ret ch); simpl; [apply IH|done].
Qed.

(** With a generator of at most 12 coefficients the shift loop never reads
    [ret[12]], where the new coefficient is written, so the thirteen-element
    accumulator stays twelve zeros followed by the last coefficient read. *)
Lemma polymod_step_short (modulus : list Fe) (x ch : Fe) :
  (1 <= length modulus <= 12)%nat ->
  polymod_step modulus (repeat (mkFe 0) 12 ++ [x]) ch =
  Some (repeat (mkFe 0) 12 ++ [ch]).
Proof.
  intros Hm.
  assert (Hz : forall y i, (i < 12)%nat ->
            (repeat (mkFe 0) 12 ++ [y]) !! i = Some (mkFe 0)).
  { intros y i Hi. rewrite lookup_app_l by (rewrite repeat_length; lia).
    by apply lookup_repeat_lt. }
  remember (repeat (mkFe 0) 12 ++ [x]) as zx eqn:Hzx.
  remember (repeat (mkFe 0) 12 ++ [ch]) as zc eqn:Hzc.
  assert (Hins : vec_set zx 12 ch = Some zc) by (subst; reflexivity).
  unfold polymod_step. rewrite Hzx, (Hz x 0%nat), <- Hzx by lia. simpl.
  rewrite usize_sub1_pos by lia. simpl.
  rewrite for_each_id; [simpl|].
  2: { intros i Hi. subst zx. apply shift_body_zero; apply Hz; lia. }
  rewrite Hins. simpl.
  apply for_each_id. intros i Hi. apply add_body_zero.
  - subst zc. rewrite Hz by lia. eauto.
  - apply lookup_lt_is_Some. lia.
Qed.

Lemma polymod_loop_short (modulus : list Fe) (x : Fe) (chs : list Fe) :
  (1 <= length modulus <= 12)%nat ->
  polymod_loop modulus (repeat (mkFe 0) 12 ++ [x]) chs =
  Some (repeat (mkFe 0) 12 ++ [default x (last chs)]).
Proof.
  intros Hm. revert x. induction chs as [|ch chs IH]; intros x;
    cbn [polymod_loop]; [done|].
  rewrite polymod_step_short by done. cbn [mbind option_bind]. rewrite IH.
  rewrite last_cons. by destruct (last chs).
Qed.

(** The shift loop of a generator with 14 or more coefficients reads
    [ret[13]] of the thirteen-element accumulator. *)
Lemma for_each_shift_overrun (k lo : nat) (ret : list Fe) :
  length ret = 13%nat -> (lo <= 12 < lo + k)%nat ->
  for_each k lo shift_body ret = None.
Proof.
  revert lo ret. induction k as [|k IH]; intros lo ret Hlen Hlo; [lia|]. simpl.
  destruct (decide (lo = 12%nat)) as [->|Hne].
  - unfold shift_body. rewrite lookup_ge_None_2 by lia. done.
  - unfold shift_body.
    destruct (ret !! S lo) as [y|] eqn:Hy; [|apply lookup_ge_None_1 in Hy; lia].
    simpl. rewrite vec_set_lt by lia. simpl. apply IH; [|lia].
    by rewrite length_insert.
Qed.

Lemma retain_seen_length (b : bool) (l : list Fe) :
  (length (retain_seen b l) <= length l)%nat.
Proof.
  revert b. induction l as [|x l IH]; intros b; simpl; [lia|].
  specialize (IH (b || negb (fe_eqb x (mkFe 0)))).
  destruct (b || negb (fe_eqb x (mkFe 0))); simpl; lia.
Qed.

(** [FePoly::polymod] panics exactly when the input is not empty and the
    generator is empty ([modulus.len() - 1] overflows) or longer than 13
    (the shift loop reads [ret[13]]); otherwise it returns at most 13
    coefficients. *)
Theorem polymod_panics_iff (modulus : list Fe) (p : FePoly) :
  (polymod modulus p = None <->
   fepoly_0 p <> [] /\ (length modulus = 0%nat \/ (13 < length modulus)%nat)) /\
  (forall r, polymod modulus p = Some r -> (length (fepoly_0 r) <= 13)%nat).
Proof.
  destruct p as [[|ch chs]].
  - split; [|intros r Hr; vm_compute in Hr; inversion Hr; simpl; lia].
    split; [vm_compute; discriminate|simpl; tauto].
  - cbn [fepoly_0].
    destruct (decide (1 <= length modulus <= 13)%nat) as [Hm|Hm].
    + destruct (polymod_loop_some modulus (repeat (mkFe 0) 13) (ch :: chs))
        as [acc [Hacc Hlen]]; [done|by rewrite repeat_length|].
      unfold polymod, polymod_acc. cbn [fepoly_0]. rewrite Hacc. simpl.
      split; [split; [discriminate|lia]|].
      intros r Hr. inversion Hr. simpl.
      pose proof (retain_seen_length false acc). unfold normalize. lia.
    + assert (Hnone : polymod modulus (mkFePoly (ch :: chs)) = None).
      { unfold polymod, polymod_acc. cbn [fepoly_0 polymod_loop].
        unfold polymod_step. simpl (repeat (mkFe 0) 13 !! 0%nat).
        cbn [mbind option_bind].
        destruct (length modulus) as [|n] eqn:Hn; [done|].
        simpl (usize_sub1 (S n)). cbn [mbind option_bind].
        rewrite for_each_shift_overrun; [done|by rewrite repeat_length|lia]. }
      rewrite Hnone. split; [split; [intros _; split; [discriminate|lia]|done]|].
      discriminate.
Qed.

(** Zero coefficients at the front of the input do not change the result
    of a reduction with a generator of 1 to 13 coefficients. *)
Theorem polymod_zero_prefix (modulus : list Fe) (n : nat) (l : list Fe)
    (Hm : (1 <= length modulus <= 13)%nat) :
  polymod modulus (mkFePoly (repeat (mkFe 0) n ++ l)) = polymod modulus (mkFePoly l).
Proof.
  unfold polymod, polymod_acc. cbn [fepoly_0].
  rewrite polymod_loop_app, polymod_loop_zeros by done. done.
Qed.

Lemma polymod_zero_prefix_witness :
  (1 <= length CODEX32_POLYMOD <= 13)%nat /\
  polymod CODEX32_POLYMOD (mkFePoly (repeat (mkFe 0) 3 ++ [mkFe 7; mkFe 1])) =
  polymod CODEX32_POLYMOD (mkFePoly [mkFe 7; mkFe 1]).
Proof.
  assert (Hm : (1 <= length CODEX32_POLYMOD <= 13)%nat) by (simpl; lia).
  split; [exact Hm|]. exact (polymod_zero_prefix CODEX32_POLYMOD 3 _ Hm).
Defined.

(** An all-zero input of any length reduces to the empty polynomial. *)
Theorem polymod_all_zero (modulus : list Fe) (n : nat)
    (Hm : (1 <= length modulus <= 13)%nat) :
  polymod modulus (mkFePoly (repeat (mkFe 0) n)) = Some (mkFePoly []).
Proof.
  unfold polymod, polymod_acc. cbn [fepoly_0].
  rewrite polymod_loop_zeros by done. reflexivity.
Qed.

Lemma polymod_all_zero_witness :
  (1 <= length BECH32_POLYMOD <= 13)%nat /\
  polymod BECH32_POLYMOD (mkFePoly (repeat (mkFe 0) 6)) = Some (mkFePoly []).
Proof.
  assert (Hm : (1 <= length BECH32_POLYMOD <= 13)%nat) by (simpl; lia).
  split; [exact Hm|]. exact (polymod_all_zero BECH32_POLYMOD 6 Hm).
Defined.

(** With a generator of 1 to 12 coefficients the result depends only on
    the last input coefficient: it is that coefficient alone, or the empty
    polynomial when it is zero or the input is empty. *)
Theorem polymod_short_generator (modulus : list Fe) (p : FePoly)
    (Hm : (1 <= length modulus <= 12)%nat) :
  polymod modulus p =
  Some (mkFePoly (let x := default zero (last (fepoly_0 p)) in
                  if fe_eqb x zero then [] else [x])).
Proof.
  unfold polymod, polymod_acc.
  replace (repeat (mkFe 0) 13) with (repeat (mkFe 0) 12 ++ [mkFe 0]) by reflexivity.
  rewrite polymod_loop_short by done. cbn [mbind option_bind].
  rewrite normalize_strip. reflexivity.
Qed.

Lemma polymod_short_generator_witness :
  (1 <= length BECH32_POLYMOD <= 12)%nat /\
  polymod BECH32_POLYMOD (mkFePoly [mkFe 3; mkFe 9]) =
  Some (mkFePoly (let x := default zero (last [mkFe 3; mkFe 9]) in
                  if fe_eqb x zero then [] else [x])).
Proof.
  assert (Hm : (1 <= length BECH32_POLYMOD <= 12)%nat) by (simpl; lia).
  split; [exact Hm|]. exact (polymod_short_generator BECH32_POLYMOD (mkFePoly _) Hm).
Defined.

(** Every bech32 HRP residue is the empty polynomial: the expanded sequence
    ends in zeros and the 6-coefficient reduction keeps only the last one. *)
Theorem bech32_hrp_residue_empty (s : list N) :
  bech32_hrp_residue s = Some (mkFePoly []).
Proof.
  unfold bech32_hrp_residue, hrp_residue, polymod, polymod_acc.
  replace (repeat (mkFe 0) 13) with (repeat (mkFe 0) 12 ++ [mkFe 0]) by reflexivity.
  rewrite polymod_loop_short by (simpl; lia). cbn [mbind option_bind fepoly_0].
  unfold hrp_poly. replace (length BECH32_POLYMOD) with 6%nat by reflexivity.
  replace (repeat (mkFe 0) 6) with ([mkFe 0; mkFe 0; mkFe 0; mkFe 0; mkFe 0] ++ [mkFe 0])
    by reflexivity.
  rewrite app_assoc, last_snoc. reflexivity.
Qed.

(** ** Further properties of the field operations *)

Definition range_n (n : nat) : list N := map N.of_nat (seq 0 n).

Lemma forallb_range_n (n : nat) (f : N -> bool) :
  forallb f (range_n n) = true -> forall a, (N.to_nat a < n)%nat -> f a = true.
Proof.
  intros Hf a Ha. rewrite forallb_forall in Hf. apply Hf.
  apply in_map_iff. exists (N.to_nat a). split; [lia|]. apply in_seq. lia.
Qed.

Definition fe_eqb_all2 (f g : N -> N -> Fe) : bool :=
  forallb (fun a => forallb (fun b => fe_eqb (f a b) (g a b)) (range_n 32)) (range_n 32).

Definition fe_eqb_all3 (f g : N -> N -> N -> Fe) : bool :=
  forallb (fun a => forallb (fun b => forallb (fun c =>
    fe_eqb (f a b c) (g a b c)) (range_n 32)) (range_n 32)) (range_n 32).

Lemma fe_eqb_eq (x y : Fe) : fe_eqb x y = true -> x = y.
Proof. destruct x, y. unfold fe_eqb. simpl. intros H. apply N.eqb_eq in H. by subst. Qed.

Lemma fe_eqb_all2_spec (f g : N -> N -> Fe) :
  fe_eqb_all2 f g = true -> forall a b, a <= 31 -> b <= 31 -> f a b = g a b.
Proof.
  intros H a b Ha Hb. apply fe_eqb_eq.
  eapply forallb_range_n in H; [|instantiate (1 := a); lia].
  eapply forallb_range_n in H; [exact H|lia].
Qed.

Lemma fe_eqb_all3_spec (f g : N -> N -> N -> Fe) :
  fe_eqb_all3 f g = true ->
  forall a b c, a <= 31 -> b <= 31 -> c <= 31 -> f a b c = g a b c.
Proof.
  intros H a b c Ha Hb Hc. apply fe_eqb_eq.
  eapply forallb_range_n in H; [|instantiate (1 := a); lia].
  eapply forallb_range_n in H; [|instantiate (1 := b); lia].
  eapply forallb_range_n in H; [exact H|lia].
Qed.

(** Multiplication is commutative on elements with values in [0, 31]. *)
Theorem fe_mul_comm (a b : Fe) (Ha : fe_0 a <= 31) (Hb : fe_0 b <= 31) :
  fe_mul a b = fe_mul b a.
Proof.
  destruct a as [a], b as [b]. simpl in Ha, Hb.
  refine (fe_eqb_all2_spec (fun a b => fe_mul (mkFe a) (mkFe b))
            (fun a b => fe_mul (mkFe b) (mkFe a)) _ a b Ha Hb).
  vm_compute. reflexivity.
Qed.

Lemma fe_mul_comm_witness :
  fe_0 (mkFe 6) <= 31 /\ fe_0 (mkFe 19) <= 31 /\
  fe_mul (mkFe 6) (mkFe 19) = fe_mul (mkFe 19) (mkFe 6).
Proof.
  assert (Ha : fe_0 (mkFe 6) <= 31) by (simpl; lia).
  assert (Hb : fe_0 (mkFe 19) <= 31) by (simpl; lia).
  split; [exact Ha|]. split; [exact Hb|]. exact (fe_mul_comm _ _ Ha Hb).
Defined.

(** Multiplication is associative on elements with values in [0, 31]. *)
Theorem fe_mul_assoc (a b d : Fe)
    (Ha : fe_0 a <= 31) (Hb : fe_0 b <= 31) (Hd : fe_0 d <= 31) :
  fe_mul (fe_mul a b) d = fe_mul a (fe_mul b d).
Proof.
  destruct a as [a], b as [b], d as [d]. simpl in Ha, Hb, Hd.
  refine (fe_eqb_all3_spec
            (fun a b d => fe_mul (fe_mul (mkFe a) (mkFe b)) (mkFe d))
            (fun a b d => fe_mul (mkFe a) (fe_mul (mkFe b) (mkFe d))) _ a b d Ha Hb Hd).
  vm_compute. reflexivity.
Qed.

Lemma fe_mul_assoc_witness :
  fe_0 (mkFe 6) <= 31 /\ fe_0 (mkFe 19) <= 31 /\ fe_0 (mkFe 30) <= 31 /\
  fe_mul (fe_mul (mkFe 6) (mkFe 19)) (mkFe 30) = fe_mul (mkFe 6) (fe_mul (mkFe 19) (mkFe 30)).
Proof.
  assert (Ha : fe_0 (mkFe 6) <= 31) by (simpl; lia).
  assert (Hb : fe_0 (mkFe 19) <= 31) by (simpl; lia).
  assert (Hd : fe_0 (mkFe 30) <= 31) by (simpl; lia).
  split; [exact Ha|]. split; [exact Hb|]. split; [exact Hd|].
  exact (fe_mul_assoc _ _ _ Ha Hb Hd).
Defined.

(** Multiplication distributes over addition on elements with values in
    [0, 31]. *)
Theorem fe_mul_distr (a b d : Fe)
    (Ha : fe_0 a <= 31) (Hb : fe_0 b <= 31) (Hd : fe_0 d <= 31) :
  fe_mul a (fe_add b d) = fe_add (fe_mul a b) (fe_mul a d).
Proof.
  destruct a as [a], b as [b], d as [d]. simpl in Ha, Hb, Hd.
  refine (fe_eqb_all3_spec
            (fun a b d => fe_mul (mkFe a) (fe_add (mkFe b) (mkFe d)))
            (fun a b d => fe_add (fe_mul (mkFe a) (mkFe b)) (fe_mul (mkFe a) (mkFe d)))
            _ a b d Ha Hb Hd).
  vm_compute. reflexivity.
Qed.

Lemma fe_mul_distr_witness :
  fe_0 (mkFe 6) <= 31 /\ fe_0 (mkFe 19) <= 31 /\ fe_0 (mkFe 30) <= 31 /\
  fe_mul (mkFe 6) (fe_add (mkFe 19) (mkFe 30)) =
  fe_add (fe_mul (mkFe 6) (mkFe 19)) (fe_mul (mkFe 6) (mkFe 30)).
Proof.
  assert (Ha : fe_0 (mkFe 6) <= 31) by (simpl; lia).
  assert (Hb : fe_0 (mkFe 19) <= 31) by (simpl; lia).
  assert (Hd : fe_0 (mkFe 30) <= 31) by (simpl; lia).
  split; [exact Ha|]. split; [exact Hb|]. split; [exact Hd|].
  exact (fe_mul_distr _ _ _ Ha Hb Hd).
Defined.

(** Every element with a value in [1, 31] has a multiplicative inverse in
    [0, 31]: the mask 41 defines a field. *)
Theorem fe_mul_inverse (a : Fe) (Ha : 1 <= fe_0 a <= 31) :
  exists b, fe_0 b <= 31 /\ fe_mul a b = one.
Proof.
  destruct a as [a]. simpl in Ha.
  assert (Htab : forallb (fun a => (a =? 0) || existsb (fun b =>
            fe_eqb (fe_mul (mkFe a) (mkFe b)) one) (range_n 32)) (range_n 32) = true)
    by (vm_compute; reflexivity).
  eapply forallb_range_n in Htab; [|instantiate (1 := a); lia].
  apply orb_prop in Htab as [H0|Hex]; [apply N.eqb_eq in H0; lia|].
  apply existsb_exists in Hex as [b [Hb Hmul]].
  apply in_map_iff in Hb as [k [<- Hk]]. apply in_seq in Hk.
  exists (mkFe (N.of_nat k)). split; [simpl; lia|]. by apply fe_eqb_eq.
Qed.

Lemma fe_mul_inverse_witness :
  1 <= fe_0 (mkFe 9) <= 31 /\ exists b, fe_0 b <= 31 /\ fe_mul (mkFe 9) b = one.
Proof.
  assert (Ha : 1 <= fe_0 (mkFe 9) <= 31) by (simpl; lia).
  split; [exact Ha|]. exact (fe_mul_inverse _ Ha).
Defined.

(** Multiplying any [u8] element by an element with a value in [0, 31]
    gives a value in [0, 31]: the right operand, once doubled, is folded
    back under bit 5 before it is accumulated. *)
Theorem fe_mul_range (a b : Fe) (Ha : fe_0 a <= 255) (Hb : fe_0 b <= 31) :
  fe_0 (fe_mul a b) <= 31.
Proof.
  destruct a as [a], b as [b]. simpl in Ha, Hb.
  assert (Htab : forallb (fun a => forallb (fun b =>
            fe_0 (fe_mul (mkFe a) (mkFe b)) <=? 31) (range_n 32)) (range_n 256) = true)
    by (vm_compute; reflexivity).
  eapply forallb_range_n in Htab; [|instantiate (1 := a); lia].
  eapply forallb_range_n in Htab; [|instantiate (1 := b); lia].
  by apply N.leb_le in Htab.
Qed.

Lemma fe_mul_range_witness :
  fe_0 (mkFe 200) <= 255 /\ fe_0 (mkFe 31) <= 31 /\ fe_0 (fe_mul (mkFe 200) (mkFe 31)) <= 31.
Proof.
  assert (Ha : fe_0 (mkFe 200) <= 255) by (simpl; lia).
  assert (Hb : fe_0 (mkFe 31) <= 31) by (simpl; lia).
  split; [exact Ha|]. split; [exact Hb|]. exact (fe_mul_range _ _ Ha Hb).
Defined.

(** Addition is associative with [zero] as identity, and it keeps values in
    [0, 31]. *)
Theorem fe_add_assoc_range (a b d : Fe) :
  fe_add (fe_add a b) d = fe_add a (fe_add b d) /\ fe_add a zero = a /\
  (fe_0 a <= 31 -> fe_0 b <= 31 -> fe_0 (fe_add a b) <= 31).
Proof.
  destruct a as [a], b as [b], d as [d]. unfold fe_add, zero. cbn [fe_0].
  split; [by rewrite N.lxor_assoc|]. split; [by rewrite N.lxor_0_r|].
  intros Ha Hb.
  assert (Htab : forallb (fun a => forallb (fun b =>
            N.lxor a b <=? 31) (range_n 32)) (range_n 32) = true)
    by (vm_compute; reflexivity).
  eapply forallb_range_n in Htab; [|instantiate (1 := a); lia].
  eapply forallb_range_n in Htab; [|instantiate (1 := b); lia].
  by apply N.leb_le in Htab.
Qed.

(** Away from the misprinted index 20 of [BECH32_ALPHABET], element and
    character conversions invert each other: every value [v <= 31] other
    than 20 converts to a character that converts back to [v]. *)
Theorem fe_char_roundtrip (v : N) (Hv : v <= 31) (H20 : v <> 20) :
  exists ch, char_of_fe (mkFe v) = Some ch /\ fe_try_from ch = Ok (mkFe v).
Proof.
  assert (Htab : forallb (fun v => (v =? 20) ||
            match char_of_fe (mkFe v) with
            | Some ch => match fe_try_from ch with
                         | Ok fe => fe_eqb fe (mkFe v) | Err _ => false end
            | None => false end) (range_n 32) = true)
    by (vm_compute; reflexivity).
  eapply forallb_range_n in Htab; [|instantiate (1 := v); lia].
  apply orb_prop in Htab as [H|H]; [apply N.eqb_eq in H; lia|].
  destruct (char_of_fe (mkFe v)) as [ch|]; [|discriminate].
  destruct (fe_try_from ch) as [fe|e] eqn:Hch; [|discriminate].
  exists ch. split; [done|]. apply fe_eqb_eq in H. by subst.
Qed.

Lemma fe_char_roundtrip_witness :
  7 <= 31 /\ 7 <> 20 /\
  exists ch, char_of_fe (mkFe 7) = Some ch /\ fe_try_from ch = Ok (mkFe 7).
Proof.
  assert (Hv : 7 <= 31) by lia. assert (H20 : 7 <> 20) by lia.
  split; [exact Hv|]. split; [exact H20|]. exact (fe_char_roundtrip 7 Hv H20).
Defined.

(** Every character accepted by the conversion other than ['5'] converts to
    an element that converts back to the same character; ['5'] comes back
    as ['S']. *)
Theorem char_fe_roundtrip (ch : N) (Hin : In ch try_from_chars) :
  exists fe, fe_try_from ch = Ok fe /\
    char_of_fe fe = Some (if ch =? c "5" then c "S" else ch).
Proof.
  vm_compute in Hin.
  repeat (destruct Hin as [<-|Hin]; [eexists; split; reflexivity|]).
  contradiction.
Qed.

Lemma char_fe_roundtrip_witness :
  In (c "5") try_from_chars /\
  exists fe, fe_try_from (c "5") = Ok fe /\
    char_of_fe fe = Some (if c "5" =? c "5" then c "S" else c "5").
Proof.
  assert (Hin : In (c "5") try_from_chars) by (vm_compute; tauto).
  split; [exact Hin|]. exact (char_fe_roundtrip _ Hin).
Defined.

(** ** Linearity of the codex32 accumulator *)

Definition fe_in_range (x : Fe) : Prop := fe_0 x <= 31.

Lemma fe_mul_small (h g : Fe) :
  fe_in_range h -> fe_in_range g -> fe_in_range (fe_mul h g).
Proof.
  destruct h as [h], g as [g]. unfold fe_in_range. cbn [fe_0]. intros Hh Hg.
  assert (Htab : forallb (fun h => forallb (fun g =>
            fe_0 (fe_mul (mkFe h) (mkFe g)) <=? 31) (range_n 32)) (range_n 32) = true)
    by (vm_compute; reflexivity).
  eapply forallb_range_n in Htab; [|instantiate (1 := h); lia].
  eapply forallb_range_n in Htab; [|instantiate (1 := g); lia].
  by apply N.leb_le in Htab.
Qed.

Lemma fe_add_small (x y : Fe) :
  fe_in_range x -> fe_in_range y -> fe_in_range (fe_add x y).
Proof.
  destruct x as [x], y as [y]. unfold fe_in_range, fe_add. cbn [fe_0]. intros Hx Hy.
  assert (Htab : forallb (fun x => forallb (fun y =>
            N.lxor x y <=? 31) (range_n 32)) (range_n 32) = true)
    by (vm_compute; reflexivity).
  eapply forallb_range_n in Htab; [|instantiate (1 := x); lia].
  eapply forallb_range_n in Htab; [|instantiate (1 := y); lia].
  by apply N.leb_le in Htab.
Qed.

Lemma fe_mul_distr_r_small (h1 h2 g : Fe) :
  fe_in_range h1 -> fe_in_range h2 -> fe_in_range g ->
  fe_mul (fe_add h1 h2) g = fe_add (fe_mul h1 g) (fe_mul h2 g).
Proof.
  destruct h1 as [h1], h2 as [h2], g as [g]. unfold fe_in_range. cbn [fe_0].
  intros H1 H2 Hg.
  refine (fe_eqb_all3_spec
            (fun h1 h2 g => fe_mul (fe_add (mkFe h1) (mkFe h2)) (mkFe g))
            (fun h1 h2 g => fe_add (fe_mul (mkFe h1) (mkFe g)) (fe_mul (mkFe h2) (mkFe g)))
            _ h1 h2 g H1 H2 Hg).
  vm_compute. reflexivity.
Qed.

Lemma fe_add_swap (x1 x2 m1 m2 : Fe) :
  fe_add (fe_add x1 x2) (fe_add m1 m2) = fe_add (fe_add x1 m1) (fe_add x2 m2).
Proof.
  destruct x1 as [x1], x2 as [x2], m1 as [m1], m2 as [m2]. unfold fe_add. cbn [fe_0].
  f_equal. apply N.bits_inj. intros i. rewrite !N.lxor_spec. btauto.
Qed.

Lemma zip_register_linear (s1 s2 g : list Fe) (h1 h2 : Fe) :
  fe_in_range h1 -> fe_in_range h2 -> Forall fe_in_range g ->
  length s1 = length s2 ->
  zip_with (fun x gi => fe_add x (fe_mul (fe_add h1 h2) gi)) (zip_with fe_add s1 s2) g =
  zip_with fe_add (zip_with (fun x gi => fe_add x (fe_mul h1 gi)) s1 g)
                  (zip_with (fun x gi => fe_add x (fe_mul h2 gi)) s2 g).
Proof.
  intros H1 H2 Hg. revert s2 g Hg.
  induction s1 as [|x1 s1 IH]; intros [|x2 s2] [|gi g] Hg Hlen; simpl in *; try done.
  apply Forall_cons in Hg as [Hgi Hg]. f_equal.
  - rewrite fe_mul_distr_r_small by done. apply fe_add_swap.
  - apply IH; [done|lia].
Qed.

Lemma Forall_zip_with_range (f : Fe -> Fe -> Fe) (l k : list Fe) :
  (forall x y, fe_in_range x -> fe_in_range y -> fe_in_range (f x y)) ->
  Forall fe_in_range l -> Forall fe_in_range k -> Forall fe_in_range (zip_with f l k).
Proof.
  intros Hf Hl. revert k. induction Hl as [|x l Hx Hl IH]; intros [|y k] Hk; simpl;
    constructor; apply Forall_cons in Hk as [Hy Hk]; auto.
Qed.

Lemma spec_step_range (g acc : list Fe) (ch : Fe) :
  Forall fe_in_range g -> Forall fe_in_range acc -> fe_in_range ch ->
  Forall fe_in_range (spec_step g acc ch).
Proof.
  intros Hg Hacc Hch. unfold spec_step.
  assert (Hcarry : fe_in_range (match acc with [] => mkFe 0 | a :: _ => a end)).
  { destruct acc as [|a acc]; [unfold fe_in_range; simpl; lia|].
    by apply Forall_cons in Hacc as [? _]. }
  apply Forall_zip_with_range; [|apply Forall_app; split|done].
  - intros x y Hx Hy. apply fe_add_small; [done|]. by apply fe_mul_small.
  - destruct acc as [|a acc]; simpl; [constructor|].
    by apply Forall_cons in Hacc as [_ ?].
  - by constructor.
Qed.

Lemma spec_step_linear (g a1 a2 : list Fe) (c1 c2 : Fe) :
  Forall fe_in_range g -> Forall fe_in_range a1 -> Forall fe_in_range a2 ->
  length a1 = length a2 -> a1 <> [] ->
  spec_step g (zip_with fe_add a1 a2) (fe_add c1 c2) =
  zip_with fe_add (spec_step g a1 c1) (spec_step g a2 c2).
Proof.
  intros Hg H1 H2 Hlen Hne.
  destruct a1 as [|x1 t1]; [done|]. destruct a2 as [|x2 t2]; [simpl in Hlen; lia|].
  apply Forall_cons in H1 as [Hx1 _]. apply Forall_cons in H2 as [Hx2 _].
  unfold spec_step. cbn [zip_with tail].
  change [fe_add c1 c2] with (zip_with fe_add [c1] [c2]).
  rewrite <- zip_with_app by (simpl in Hlen; lia).
  apply zip_register_linear; [done|done|done|].
  rewrite !length_app. simpl in *. lia.
Qed.

Lemma spec_step_length (g acc : list Fe) (ch : Fe) :
  length g = 13%nat -> length acc = 13%nat -> length (spec_step g acc ch) = 13%nat.
Proof.
  intros Hg Ha. unfold spec_step. rewrite length_zip_with, length_app.
  destruct acc; simpl in *; lia.
Qed.

Lemma CODEX32_POLYMOD_range : Forall fe_in_range CODEX32_POLYMOD.
Proof. unfold CODEX32_POLYMOD. simpl. repeat constructor; unfold fe_in_range; simpl; lia. Qed.

Lemma fold_spec_step_linear (p q a1 a2 : list Fe) :
  length p = length q -> Forall fe_in_range p -> Forall fe_in_range q ->
  Forall fe_in_range a1 -> Forall fe_in_range a2 ->
  length a1 = 13%nat -> length a2 = 13%nat ->
  fold_left (spec_step CODEX32_POLYMOD) (zip_with fe_add p q) (zip_with fe_add a1 a2) =
  zip_with fe_add (fold_left (spec_step CODEX32_POLYMOD) p a1)
                  (fold_left (spec_step CODEX32_POLYMOD) q a2).
Proof.
  revert q a1 a2.
  induction p as [|x p IH]; intros [|y q] a1 a2 Hlen Hp Hq Ha1 Ha2 Hl1 Hl2;
    simpl in *; try (done || lia).
  apply Forall_cons in Hp as [Hx Hp]. apply Forall_cons in Hq as [Hy Hq].
  pose proof CODEX32_POLYMOD_range as Hg.
  rewrite spec_step_linear by (try done; try lia; by destruct a1).
  apply IH; try done; try lia;
    try (apply spec_step_range; done); apply spec_step_length; done.
Qed.

(** The accumulator of the codex32 reduction is linear: for two inputs of
    equal length with coefficients in [0, 31], the accumulator of their
    coefficient-wise sum is the coefficient-wise sum of their
    accumulators. *)
Theorem codex32_acc_linear (p q : list Fe) (Hlen : length p = length q)
    (Hp : Forall fe_in_range p) (Hq : Forall fe_in_range q) :
  polymod_acc CODEX32_POLYMOD (mkFePoly (zip_with fe_add p q)) =
  (a1 ← polymod_acc CODEX32_POLYMOD (mkFePoly p);
   a2 ← polymod_acc CODEX32_POLYMOD (mkFePoly q);
   Some (zip_with fe_add a1 a2)).
Proof.
  unfold polymod_acc. cbn [fepoly_0].
  rewrite !polymod_loop_codex32 by done. cbn [mbind option_bind]. f_equal.
  replace (repeat (mkFe 0) 13)
    with (zip_with fe_add (repeat (mkFe 0) 13) (repeat (mkFe 0) 13)) at 1 by reflexivity.
  apply fold_spec_step_linear; try done;
    unfold fe_in_range; simpl; repeat constructor; simpl; lia.
Qed.

Lemma codex32_acc_linear_witness :
  length [mkFe 3; mkFe 30] = length [mkFe 17; mkFe 5] /\
  Forall fe_in_range [mkFe 3; mkFe 30] /\ Forall fe_in_range [mkFe 17; mkFe 5] /\
  polymod_acc CODEX32_POLYMOD (mkFePoly (zip_with fe_add [mkFe 3; mkFe 30] [mkFe 17; mkFe 5])) =
  (a1 ← polymod_acc CODEX32_POLYMOD (mkFePoly [mkFe 3; mkFe 30]);
   a2 ← polymod_acc CODEX32_POLYMOD (mkFePoly [mkFe 17; mkFe 5]);
   Some (zip_with fe_add a1 a2)).
Proof.
  assert (Hl : length [mkFe 3; mkFe 30] = length [mkFe 17; mkFe 5]) by reflexivity.
  assert (Hp : Forall fe_in_range [mkFe 3; mkFe 30])
    by (repeat constructor; unfold fe_in_range; simpl; lia).
  assert (Hq : Forall fe_in_range [mkFe 17; mkFe 5])
    by (repeat constructor; unfold fe_in_range; simpl; lia).
  split; [exact Hl|]. split; [exact Hp|]. split; [exact Hq|].
  exact (codex32_acc_linear _ _ Hl Hp Hq).
Defined.
